(** * ryan-test/gauss.c: the two Gauss summation functions

    [gauss_ref] is the recursive reference function and [gauss_closed] the
    closed form.  Both take and return a C [int], a 32-bit signed integer on
    the targeted platform.  Integers are modelled as [Z] together with an
    explicit treatment of what happens when a result leaves the [int] range.
    The two functions are given as Rocq functions and, for what concerns
    the memory of the running program, as the program text with a
    semantics of calls. *)

From Stdlib Require Import ZArith Zdivisibility Lia Bool String.

Local Open Scope Z_scope.
Local Open Scope list_scope.

(** ** C [int] arithmetic *)

Module CInt.

Definition int_bits : Z := 32.
Definition modulus : Z := 2 ^ int_bits.
Definition half_modulus : Z := 2 ^ (int_bits - 1).
Definition max_int : Z := half_modulus - 1.
Definition min_int : Z := - half_modulus.

Definition in_range (z : Z) : bool := (min_int <=? z) && (z <=? max_int).

(** The representative of [z] modulo [2^32] inside the [int] range. *)
Definition wrap32 (z : Z) : Z := (z + half_modulus) mod modulus - half_modulus.

(** What an out-of-range signed result means.  ISO C leaves it undefined
    ([Strict]); the machine instruction (and [-fwrapv]) wraps it around
    ([Wrap]). *)
Inductive sem : Type := Wrap | Strict.

(** The outcome of evaluating C code under a bound on the recursion. *)
Inductive outcome (A : Type) : Type :=
| Val (a : A)
| UB
| OutOfFuel.

Arguments Val {A} a.
Arguments UB {A}.
Arguments OutOfFuel {A}.

Definition bind {A B : Type} (m : outcome A) (k : A -> outcome B) : outcome B :=
  match m with
  | Val a => k a
  | UB => UB
  | OutOfFuel => OutOfFuel
  end.

(** The mathematical result [z] of a signed operation, stored in an [int]. *)
Definition norm (p : sem) (z : Z) : outcome Z :=
  if in_range z then Val z
  else match p with
       | Wrap => Val (wrap32 z)
       | Strict => UB
       end.

Definition add (p : sem) (a b : Z) : outcome Z := norm p (a + b).
Definition sub (p : sem) (a b : Z) : outcome Z := norm p (a - b).
Definition mul (p : sem) (a b : Z) : outcome Z := norm p (a * b).

(** C's [/] truncates toward zero; a zero divisor is undefined. *)
Definition div (p : sem) (a b : Z) : outcome Z :=
  if b =? 0 then UB else norm p (Z.quot a b).

End CInt.

Import CInt.

Declare Scope cint_scope.
Delimit Scope cint_scope with cint.
Notation "x <- m ;; k" := (bind m (fun x => k))
  (at level 61, m at next level, right associativity) : cint_scope.
Local Open Scope cint_scope.

(** ** The two functions of gauss.c *)

(** [int gauss_ref(int n) { if (n == 1) return 1; return gauss_ref(n-1) + 1; }]

    [fuel] bounds the number of nested recursive calls that may be made. *)
Fixpoint gauss_ref (p : sem) (fuel : nat) (n : Z) {struct fuel} : outcome Z :=
  if n =? 1 then Val 1
  else
    m <- sub p n 1 ;;
    match fuel with
    | O => OutOfFuel
    | S fuel' =>
        r <- gauss_ref p fuel' m ;;
        add p r 1
    end.

(** The subexpression [n * (n + 1)] of [gauss_closed]. *)
Definition gauss_closed_product (p : sem) (n : Z) : outcome Z :=
  s <- add p n 1 ;;
  mul p n s.

(** [int gauss_closed(int n) { return n * (n + 1) /2; }] *)
Definition gauss_closed (p : sem) (n : Z) : outcome Z :=
  x <- gauss_closed_product p n ;;
  div p x 2.

(** ** Reference notions *)

(** The triangular number over unbounded integers. *)
Definition triangular (n : Z) : Z := n * (n + 1) / 2.

(** [1 + 2 + ... + k]. *)
Fixpoint sum_upto (k : nat) : Z :=
  match k with
  | O => 0
  | S k' => sum_upto k' + Z.of_nat k
  end.

(** The recursion of a call never ends: no bound on the nesting suffices. *)
Definition diverges (p : sem) (n : Z) : Prop :=
  forall fuel, gauss_ref p fuel n = OutOfFuel.

(** A call comes back with a value when enough nesting is allowed. *)
Definition returns (p : sem) (n v : Z) : Prop :=
  exists fuel, gauss_ref p fuel n = Val v.

(** The largest [n] whose product [n * (n + 1)] fits an [int]:
    [46340 * 46341 = 2147441940 <= 2147483647 < 46341 * 46342]. *)
Definition max_exact : Z := 46340.

(** ** gauss.c as a program

    The text of gauss.c in a small abstract syntax of C, and the meaning of
    a call as a function of the argument and of the program's memory.  The
    syntax has what gauss.c is written with (constants, the parameter,
    arithmetic, [==], calls, [if] and [return]) and, besides, reads of and
    assignments to global variables, through which a C function can depend
    on or change the state outside its arguments and result. *)

Inductive binop : Type := Oadd | Osub | Omul | Odiv | Oeq.

Inductive expr : Type :=
| Econst (z : Z)
| Evar (x : string)
| Eglobal (g : string)
| Ebinop (op : binop) (a b : expr)
| Ecall (f : string) (a : expr).

Inductive stmt : Type :=
| Sreturn (e : expr)
| Sif (c : expr) (s : stmt)
| Sassign (g : string) (e : expr)
| Sseq (s1 s2 : stmt).

Record fundef : Type := mkfundef {
  fn_name : string;
  fn_param : string;
  fn_body : stmt
}.




(** The global variables of the running program. *)
Definition store : Type := string -> Z.

Definition update (g : string) (v : Z) (m : store) : store :=
  fun h => if String.eqb h g then v else m h.

Definition eval_binop (p : sem) (op : binop) (a b : Z) : outcome Z :=
  match op with
  | Oadd => add p a b
  | Osub => sub p a b
  | Omul => mul p a b
  | Odiv => div p a b
  | Oeq => Val (if a =? b then 1 else 0)
  end.

(** The value of an expression and the store it leaves; [callf] is the
    meaning of a call, [x] the parameter and [v] its value.  Operands are
    evaluated from left to right, the argument of a call before the call;
    a name that is not the parameter has no meaning. *)
Fixpoint eval_expr (p : sem)
    (callf : string -> Z -> store -> outcome (Z * store))
    (x : string) (v : Z) (e : expr) (m : store) : outcome (Z * store) :=
  match e with
  | Econst z => Val (z, m)
  | Evar y => if String.eqb y x then Val (v, m) else UB
  | Eglobal g => Val (m g, m)
  | Ebinop op a b =>
      ra <- eval_expr p callf x v a m ;;
      rb <- eval_expr p callf x v b (snd ra) ;;
      r <- eval_binop p op (fst ra) (fst rb) ;;
      Val (r, snd rb)
  | Ecall f a =>
      ra <- eval_expr p callf x v a m ;;
      callf f (fst ra) (snd ra)
  end.

(** A statement either returns a value ([Some]) or falls through. *)
Fixpoint exec_stmt (p : sem)
    (callf : string -> Z -> store -> outcome (Z * store))
    (x : string) (v : Z) (s : stmt) (m : store)
    : outcome (option Z * store) :=
  match s with
  | Sreturn e =>
      r <- eval_expr p callf x v e m ;; Val (Some (fst r), snd r)
  | Sif c s1 =>
      r <- eval_expr p callf x v c m ;;
      if fst r =? 0 then Val (None, snd r)
      else exec_stmt p callf x v s1 (snd r)
  | Sassign g e =>
      r <- eval_expr p callf x v e m ;;
      Val (None, update g (fst r) (snd r))
  | Sseq s1 s2 =>
      r <- exec_stmt p callf x v s1 m ;;
      match fst r with
      | Some w => Val (Some w, snd r)
      | None => exec_stmt p callf x v s2 (snd r)
      end
  end.

Fixpoint find_function (prog : list fundef) (f : string) : option fundef :=
  match prog with
  | nil => None
  | fd :: rest =>
      if String.eqb f (fn_name fd) then Some fd else find_function rest f
  end.

(** A call of [f] with argument [a] in store [m]; [fuel] bounds the number
    of nested recursive calls the body may make.  A body that ends without
    [return], like a call of a function the program does not define, has no
    meaning. *)
Fixpoint call (p : sem) (prog : list fundef) (fuel : nat)
    (f : string) (a : Z) (m : store) {struct fuel} : outcome (Z * store) :=
  match find_function prog f with
  | None => UB
  | Some fd =>
      let callf :=
        match fuel with
        | O => fun _ _ _ => OutOfFuel
        | S fuel' => call p prog fuel'
        end in
      r <- exec_stmt p callf (fn_param fd) a (fn_body fd) m ;;
      match fst r with
      | Some w => Val (w, snd r)
      | None => UB
      end
  end.

(** Not part of gauss.c: a function that does use a global variable,
    [int tally(int n) { total = total + n; return total; }], kept to check
    that this semantics tells such a function from a pure one. *)
Definition tally_def : fundef :=
  mkfundef "tally" "n"
    (Sseq
       (Sassign "total" (Ebinop Oadd (Eglobal "total") (Evar "n")))
       (Sreturn (Eglobal "total"))).

(** ** Facts about the [int] range *)

Lemma int_consts :
  modulus = 4294967296 /\ half_modulus = 2147483648 /\
  max_int = 2147483647 /\ min_int = -2147483648.
Proof. repeat split. Qed.

Ltac int_consts :=
  destruct int_consts as (?Emod & ?Ehalf & ?Emax & ?Emin).

Lemma in_range_spec (z : Z) : in_range z = true <-> min_int <= z <= max_int.
Proof.
  unfold in_range. rewrite andb_true_iff, !Z.leb_le. tauto.
Qed.

Lemma in_range_false (z : Z) :
  in_range z = false <-> z < min_int \/ max_int < z.
Proof.
  unfold in_range. rewrite andb_false_iff, !Z.leb_gt. tauto.
Qed.

Lemma wrap32_range (z : Z) : min_int <= wrap32 z <= max_int.
Proof.
  unfold wrap32. int_consts.
  pose proof (Z.mod_pos_bound (z + half_modulus) modulus). lia.
Qed.

Lemma wrap32_in_range (z : Z) : in_range (wrap32 z) = true.
Proof. apply in_range_spec, wrap32_range. Qed.

Lemma wrap32_small (z : Z) : min_int <= z <= max_int -> wrap32 z = z.
Proof.
  intros H. unfold wrap32. int_consts.
  rewrite Z.mod_small by lia. lia.
Qed.

(** [wrap32 z] differs from [z] by a multiple of [2^32]. *)
Lemma wrap32_shift (z : Z) : exists k, wrap32 z = z + k * modulus.
Proof.
  exists (- ((z + half_modulus) / modulus)). unfold wrap32.
  int_consts. rewrite Emod, Ehalf.
  pose proof (Z.div_mod (z + 2147483648) 4294967296). lia.
Qed.

Lemma wrap32_congr (a b : Z) :
  a mod modulus = b mod modulus -> wrap32 a = wrap32 b.
Proof.
  intros H. unfold wrap32.
  rewrite <- (Zplus_mod_idemp_l a), <- (Zplus_mod_idemp_l b), H. reflexivity.
Qed.

Lemma wrap32_mod (z : Z) : wrap32 z mod modulus = z mod modulus.
Proof.
  destruct (wrap32_shift z) as [k ->]. apply Z_mod_plus_full.
Qed.

Lemma wrap32_mul_r (a b : Z) : wrap32 (a * wrap32 b) = wrap32 (a * b).
Proof.
  apply wrap32_congr.
  rewrite Zmult_mod, wrap32_mod, <- Zmult_mod. reflexivity.
Qed.

(** ** Facts about the arithmetic operations *)

Lemma bind_Val {A B : Type} (a : A) (k : A -> outcome B) :
  bind (Val a) k = k a.
Proof. reflexivity. Qed.

Ltac bind_val := rewrite !bind_Val; cbv beta.

Lemma norm_in_range (p : sem) (z : Z) :
  min_int <= z <= max_int -> norm p z = Val z.
Proof.
  intros H. unfold norm. apply in_range_spec in H. rewrite H. reflexivity.
Qed.

Lemma norm_Wrap (z : Z) : norm Wrap z = Val (wrap32 z).
Proof.
  unfold norm. destruct (in_range z) eqn:E; [|reflexivity].
  apply in_range_spec in E. rewrite wrap32_small; trivial.
Qed.

Lemma norm_Strict_out (z : Z) :
  z < min_int \/ max_int < z -> norm Strict z = UB.
Proof.
  intros H. unfold norm. apply in_range_false in H. rewrite H. reflexivity.
Qed.

Lemma norm_not_OutOfFuel (p : sem) (z : Z) : norm p z <> OutOfFuel.
Proof.
  unfold norm. destruct (in_range z), p; discriminate.
Qed.

Lemma norm_Val_range (p : sem) (z v : Z) :
  norm p z = Val v -> min_int <= v <= max_int.
Proof.
  unfold norm. destruct (in_range z) eqn:E.
  - intros [= <-]. apply in_range_spec, E.
  - destruct p; [|discriminate]. intros [= <-]. apply wrap32_range.
Qed.

(** ** The recursion equations of [gauss_ref] *)

Lemma gauss_ref_base (p : sem) (fuel : nat) : gauss_ref p fuel 1 = Val 1.
Proof. destruct fuel; reflexivity. Qed.

Lemma gauss_ref_O (p : sem) (n : Z) :
  n <> 1 -> gauss_ref p O n = (m <- sub p n 1 ;; OutOfFuel).
Proof.
  intros H. apply Z.eqb_neq in H. simpl. rewrite H. reflexivity.
Qed.

Lemma gauss_ref_S (p : sem) (fuel : nat) (n : Z) :
  n <> 1 ->
  gauss_ref p (S fuel) n =
    (m <- sub p n 1 ;; r <- gauss_ref p fuel m ;; add p r 1).
Proof.
  intros H. apply Z.eqb_neq in H. simpl. rewrite H. reflexivity.
Qed.

(** A call with [n = k + 1 >= 1] needs exactly [k] nested calls. *)
Lemma gauss_ref_pos (p : sem) (k : nat) :
  forall (fuel : nat) (n : Z),
    n = Z.of_nat k + 1 -> n <= max_int ->
    gauss_ref p fuel n = if (k <=? fuel)%nat then Val n else OutOfFuel.
Proof.
  induction k as [|k IH]; intros fuel n -> Hmax.
  - simpl. apply gauss_ref_base.
  - assert (Hne : Z.of_nat (S k) + 1 <> 1) by lia.
    assert (Hsub : sub p (Z.of_nat (S k) + 1) 1 = Val (Z.of_nat k + 1)).
    { unfold sub. int_consts.
      replace (Z.of_nat (S k) + 1 - 1) with (Z.of_nat k + 1) by lia.
      apply norm_in_range. lia. }
    destruct fuel as [|fuel].
    + rewrite gauss_ref_O, Hsub by exact Hne. reflexivity.
    + rewrite gauss_ref_S, Hsub by exact Hne. bind_val.
      rewrite (IH fuel (Z.of_nat k + 1)) by lia.
      change (S k <=? S fuel)%nat with (k <=? fuel)%nat.
      destruct (k <=? fuel)%nat; [|reflexivity].
      bind_val. unfold add.
      replace (Z.of_nat k + 1 + 1) with (Z.of_nat (S k) + 1) by lia.
      apply norm_in_range. int_consts. lia.
Qed.

Lemma gauss_ref_pos_Z (p : sem) (fuel : nat) (n : Z) :
  1 <= n <= max_int ->
  gauss_ref p fuel n = if n - 1 <=? Z.of_nat fuel then Val n else OutOfFuel.
Proof.
  intros H.
  rewrite (gauss_ref_pos p (Z.to_nat (n - 1)) fuel n) by lia.
  destruct (Nat.leb_spec (Z.to_nat (n - 1)) fuel);
    destruct (Z.leb_spec (n - 1) (Z.of_nat fuel)); try reflexivity; lia.
Qed.

(** ** Calls of [gauss_ref] with [n <= 0] *)

Lemma sub_one_in_range (p : sem) (n : Z) :
  min_int < n <= max_int -> sub p n 1 = Val (n - 1).
Proof.
  intros H. unfold sub. apply norm_in_range. lia.
Qed.

Lemma add_one_in_range (p : sem) (r : Z) :
  min_int <= r < max_int -> add p r 1 = Val (r + 1).
Proof.
  intros H. unfold add. apply norm_in_range. lia.
Qed.

Lemma sub_min_int_Strict : sub Strict min_int 1 = UB.
Proof. reflexivity. Qed.

Lemma sub_min_int_Wrap : sub Wrap min_int 1 = Val max_int.
Proof. reflexivity. Qed.

Lemma add_max_int_Wrap : add Wrap max_int 1 = Val min_int.
Proof. reflexivity. Qed.

(** Under ISO C the argument descends from [n = min_int + j] to [min_int]
    in [j] nested calls, and the next [n - 1] overflows. *)
Lemma gauss_ref_nonpos_Strict (j : nat) :
  forall (fuel : nat) (n : Z),
    n = min_int + Z.of_nat j -> n <= 0 ->
    gauss_ref Strict fuel n = if (j <=? fuel)%nat then UB else OutOfFuel.
Proof.
  induction j as [|j IH]; intros fuel n -> H0.
  - rewrite Z.add_0_r.
    assert (Hne : min_int <> 1) by discriminate.
    destruct fuel; [rewrite gauss_ref_O | rewrite gauss_ref_S];
      try exact Hne; rewrite sub_min_int_Strict; reflexivity.
  - assert (Hne : min_int + Z.of_nat (S j) <> 1) by lia.
    assert (Hsub : sub Strict (min_int + Z.of_nat (S j)) 1
                   = Val (min_int + Z.of_nat j)).
    { rewrite sub_one_in_range by (int_consts; lia). f_equal. lia. }
    destruct fuel as [|fuel].
    + rewrite gauss_ref_O, Hsub by exact Hne. reflexivity.
    + rewrite gauss_ref_S, Hsub by exact Hne. bind_val.
      rewrite (IH fuel _ eq_refl) by lia.
      change (S j <=? S fuel)%nat with (j <=? fuel)%nat.
      destruct (j <=? fuel)%nat; reflexivity.
Qed.

(** With wrap-around the argument passes from [min_int] to [max_int] and
    descends further to the base case. *)
Lemma gauss_ref_min_int_Wrap (fuel : nat) :
  gauss_ref Wrap fuel min_int =
    if max_int <=? Z.of_nat fuel then Val min_int else OutOfFuel.
Proof.
  assert (Hne : min_int <> 1) by discriminate.
  destruct fuel as [|fuel].
  - rewrite gauss_ref_O, sub_min_int_Wrap by exact Hne. reflexivity.
  - rewrite gauss_ref_S, sub_min_int_Wrap by exact Hne. bind_val.
    rewrite gauss_ref_pos_Z by (int_consts; lia).
    destruct (Z.leb_spec (max_int - 1) (Z.of_nat fuel));
      destruct (Z.leb_spec max_int (Z.of_nat (S fuel))); try lia.
    + bind_val. apply add_max_int_Wrap.
    + reflexivity.
Qed.

Lemma gauss_ref_nonpos_Wrap (j : nat) :
  forall (fuel : nat) (n : Z),
    n = min_int + Z.of_nat j -> n <= 0 ->
    gauss_ref Wrap fuel n =
      if n + modulus - 1 <=? Z.of_nat fuel then Val n else OutOfFuel.
Proof.
  induction j as [|j IH]; intros fuel n -> H0.
  - rewrite Z.add_0_r, gauss_ref_min_int_Wrap.
    replace (min_int + modulus - 1) with max_int by reflexivity. reflexivity.
  - assert (Hne : min_int + Z.of_nat (S j) <> 1) by lia.
    assert (Hsub : sub Wrap (min_int + Z.of_nat (S j)) 1
                   = Val (min_int + Z.of_nat j)).
    { rewrite sub_one_in_range by (int_consts; lia). f_equal. lia. }
    destruct fuel as [|fuel].
    + rewrite gauss_ref_O, Hsub by exact Hne. bind_val.
      destruct (Z.leb_spec (min_int + Z.of_nat (S j) + modulus - 1)
                  (Z.of_nat 0)); [int_consts; lia | reflexivity].
    + rewrite gauss_ref_S, Hsub by exact Hne. bind_val.
      rewrite (IH fuel _ eq_refl) by lia.
      destruct (Z.leb_spec (min_int + Z.of_nat j + modulus - 1)
                  (Z.of_nat fuel));
        destruct (Z.leb_spec (min_int + Z.of_nat (S j) + modulus - 1)
                    (Z.of_nat (S fuel))); try lia.
      * bind_val. rewrite add_one_in_range by (int_consts; lia).
        f_equal. lia.
      * reflexivity.
Qed.

Lemma gauss_ref_nonpos_Strict_Z (fuel : nat) (n : Z) :
  min_int <= n <= 0 ->
  gauss_ref Strict fuel n =
    if n - min_int <=? Z.of_nat fuel then UB else OutOfFuel.
Proof.
  intros H.
  rewrite (gauss_ref_nonpos_Strict (Z.to_nat (n - min_int)) fuel n) by lia.
  destruct (Nat.leb_spec (Z.to_nat (n - min_int)) fuel);
    destruct (Z.leb_spec (n - min_int) (Z.of_nat fuel)); try reflexivity; lia.
Qed.

Lemma gauss_ref_nonpos_Wrap_Z (fuel : nat) (n : Z) :
  min_int <= n <= 0 ->
  gauss_ref Wrap fuel n =
    if n + modulus - 1 <=? Z.of_nat fuel then Val n else OutOfFuel.
Proof.
  intros H.
  apply (gauss_ref_nonpos_Wrap (Z.to_nat (n - min_int))); lia.
Qed.

(** ** The closed form *)

Lemma quot2_range (x : Z) :
  min_int <= x <= max_int -> min_int <= Z.quot x 2 <= max_int.
Proof.
  int_consts. rewrite Emin, Emax. intros H.
  Z.to_euclidean_division_equations. lia.
Qed.

Lemma div_two (p : sem) (x : Z) :
  min_int <= x <= max_int -> div p x 2 = Val (Z.quot x 2).
Proof.
  intros H. unfold div. change (2 =? 0) with false. cbv iota.
  apply norm_in_range, quot2_range, H.
Qed.

Lemma even_consecutive (n : Z) : Z.even (n * (n + 1)) = true.
Proof.
  rewrite Z.even_mul, Z.even_add. destruct (Z.even n); reflexivity.
Qed.

Lemma wrap32_even (z : Z) : Z.even (wrap32 z) = Z.even z.
Proof.
  destruct (wrap32_shift z) as [k ->]. int_consts. rewrite Emod.
  replace (z + k * 4294967296) with (z + 2 * (k * 2147483648)) by lia.
  apply Z.even_add_mul_2.
Qed.

Lemma quot2_even (x : Z) : Z.even x = true -> 2 * Z.quot x 2 = x.
Proof.
  intros H. apply Z.even_spec in H. destruct H as [m ->].
  rewrite (Z.mul_comm 2 m), Z.quot_mul by discriminate. lia.
Qed.

Lemma gauss_closed_product_Wrap (n : Z) :
  gauss_closed_product Wrap n = Val (wrap32 (n * (n + 1))).
Proof.
  unfold gauss_closed_product, add, mul.
  rewrite norm_Wrap. bind_val. rewrite norm_Wrap, wrap32_mul_r. reflexivity.
Qed.

Lemma gauss_closed_Wrap (n : Z) :
  gauss_closed Wrap n = Val (Z.quot (wrap32 (n * (n + 1))) 2).
Proof.
  unfold gauss_closed. rewrite gauss_closed_product_Wrap. bind_val.
  apply div_two, wrap32_range.
Qed.

Lemma product_in_range (n : Z) :
  - max_exact - 1 <= n <= max_exact ->
  0 <= n * (n + 1) <= max_int.
Proof.
  unfold max_exact. int_consts. rewrite Emax. intros H. nia.
Qed.

Lemma product_out_of_range (n : Z) :
  n < - max_exact - 1 \/ max_exact < n -> max_int < n * (n + 1).
Proof.
  unfold max_exact. int_consts. rewrite Emax. intros H. nia.
Qed.

Lemma gauss_closed_product_exact (p : sem) (n : Z) :
  - max_exact - 1 <= n <= max_exact ->
  gauss_closed_product p n = Val (n * (n + 1)).
Proof.
  intros H. pose proof (product_in_range n H) as Hp.
  unfold gauss_closed_product, add, mul. int_consts.
  rewrite norm_in_range by (unfold max_exact in H; lia). bind_val.
  apply norm_in_range. lia.
Qed.

Lemma triangular_quot (n : Z) : Z.quot (n * (n + 1)) 2 = triangular n.
Proof.
  unfold triangular.
  pose proof (quot2_even _ (even_consecutive n)) as H.
  apply Z.div_unique_exact; [discriminate | lia].
Qed.

Lemma gauss_closed_exact (p : sem) (n : Z) :
  - max_exact - 1 <= n <= max_exact ->
  gauss_closed p n = Val (triangular n).
Proof.
  intros H. pose proof (product_in_range n H) as Hp.
  unfold gauss_closed. rewrite gauss_closed_product_exact by exact H.
  bind_val. rewrite div_two by (int_consts; lia).
  rewrite triangular_quot. reflexivity.
Qed.

(** Outside that range ISO C gives the call no meaning. *)
Lemma gauss_closed_Strict_overflow (n : Z) :
  min_int <= n <= max_int ->
  n < - max_exact - 1 \/ max_exact < n ->
  gauss_closed Strict n = UB.
Proof.
  intros Hr Ho. pose proof (product_out_of_range n Ho) as Hp.
  unfold gauss_closed, gauss_closed_product, add, mul.
  destruct (Z.eq_dec n max_int) as [-> | Hne].
  - reflexivity.
  - rewrite norm_in_range by lia. bind_val.
    rewrite norm_Strict_out by lia. reflexivity.
Qed.

(** [triangular] is the sum it is named after. *)
Lemma triangular_sum_upto (k : nat) : triangular (Z.of_nat k) = sum_upto k.
Proof.
  induction k as [|k IH].
  - reflexivity.
  - cbn [sum_upto]. rewrite <- IH. unfold triangular.
    replace (Z.of_nat (S k) * (Z.of_nat (S k) + 1))
      with (Z.of_nat k * (Z.of_nat k + 1) + Z.of_nat (S k) * 2) by lia.
    apply Z.div_add. discriminate.
Qed.

Lemma triangular_double (n : Z) : 2 * triangular n = n * (n + 1).
Proof.
  rewrite <- triangular_quot. apply quot2_even, even_consecutive.
Qed.

(** ** The closed form never returns its argument beyond [1] *)

Lemma coprime_modulus_odd (b : Z) : Z.odd b = true -> Z.gcd modulus b = 1.
Proof.
  intros H. apply Z.odd_spec in H. destruct H as [m ->].
  unfold modulus, int_bits.
  apply Z.coprime_pow_l; [discriminate|].
  apply Z.coprime_Bezout. exists (- m), 1. lia.
Qed.

Lemma modulus_not_divide (c : Z) : 0 < c < modulus -> ~ (modulus | c).
Proof.
  intros [H0 H1] Hd. apply Z.divide_pos_le in Hd; lia.
Qed.

(** [2^32] divides no product [n * (n - 1)] of two small positive numbers. *)
Lemma modulus_not_divide_consecutive (n : Z) :
  1 < n <= max_int -> ~ (modulus | n * (n - 1)).
Proof.
  intros H Hd. int_consts.
  destruct (Z.odd n) eqn:En.
  - apply (modulus_not_divide (n - 1)); [lia|].
    apply Z.gauss with (m := n); [exact Hd|].
    apply coprime_modulus_odd, En.
  - apply (modulus_not_divide n); [lia|].
    apply Z.gauss with (m := n - 1); [rewrite Z.mul_comm; exact Hd|].
    apply coprime_modulus_odd.
    rewrite Z.odd_sub, En. reflexivity.
Qed.

Lemma wrapped_closed_form_ne (n : Z) :
  1 < n <= max_int -> Z.quot (wrap32 (n * (n + 1))) 2 <> n.
Proof.
  intros H Heq.
  assert (Hev : Z.even (wrap32 (n * (n + 1))) = true)
    by (rewrite wrap32_even; apply even_consecutive).
  apply quot2_even in Hev. rewrite Heq in Hev.
  destruct (wrap32_shift (n * (n + 1))) as [k Hk].
  apply (modulus_not_divide_consecutive n H).
  exists (- k). lia.
Qed.

Lemma gauss_closed_ne_arg (p : sem) (n : Z) :
  1 < n <= max_int -> gauss_closed p n <> Val n.
Proof.
  intros H. destruct p.
  - rewrite gauss_closed_Wrap. intros [= Heq].
    exact (wrapped_closed_form_ne n H Heq).
  - destruct (Z_le_gt_dec n max_exact) as [Hle | Hgt].
    + rewrite gauss_closed_exact by (unfold max_exact in *; lia).
      intros [= Heq]. pose proof (triangular_double n) as Hd.
      assert (E : n * (n - 1) = 0) by lia.
      apply Z.eq_mul_0 in E. lia.
    + rewrite gauss_closed_Strict_overflow by (int_consts; lia). discriminate.
Qed.

Lemma gauss_closed_not_OutOfFuel (p : sem) (n : Z) :
  gauss_closed p n <> OutOfFuel.
Proof.
  unfold gauss_closed, gauss_closed_product, add, mul, div.
  change (2 =? 0) with false. cbv iota.
  destruct (norm p (n + 1)) as [s| |] eqn:E1;
    [|discriminate | elim (norm_not_OutOfFuel _ _ E1)].
  bind_val.
  destruct (norm p (n * s)) as [x| |] eqn:E2;
    [|discriminate | elim (norm_not_OutOfFuel _ _ E2)].
  bind_val. apply norm_not_OutOfFuel.
Qed.

Lemma gauss_closed_Val_range (p : sem) (n v : Z) :
  gauss_closed p n = Val v -> min_int <= v <= max_int.
Proof.
  unfold gauss_closed, div. change (2 =? 0) with false. cbv iota.
  destruct (gauss_closed_product p n) as [x| |]; try discriminate.
  bind_val. apply norm_Val_range.
Qed.

(** ** More fuel never changes an answer *)

Lemma gauss_ref_unfold (p : sem) (fuel : nat) (n : Z) :
  gauss_ref p fuel n =
    if n =? 1 then Val 1
    else m <- sub p n 1 ;;
         match fuel with
         | O => OutOfFuel
         | S fuel' => r <- gauss_ref p fuel' m ;; add p r 1
         end.
Proof. destruct fuel; reflexivity. Qed.




(** ** The program gauss.c and the two functions

    A call in the program computes what [gauss_ref] and [gauss_closed]
    compute and hands the store back as it got it. *)




(** ** The reference function *)

(** C1: for every [n >= 1] in the [int] range, [gauss_ref n] returns [n]
    itself, by the base case [gauss_ref 1 = 1] and the step
    [gauss_ref n = gauss_ref (n - 1) + 1] for [n > 1]; hence for [n > 1] it
    does not return the triangular number [n (n + 1) / 2]. *)
Theorem gauss_ref_returns_arg (p : sem) (n : Z) :
  1 <= n <= max_int ->
  returns p n n
  /\ (forall fuel v, gauss_ref p fuel n = Val v -> v = n)
  /\ (forall fuel, gauss_ref p fuel 1 = Val 1)
  /\ (1 < n -> forall fuel,
        gauss_ref p (S fuel) n = (r <- gauss_ref p fuel (n - 1) ;; add p r 1))
  /\ (1 < n -> n <> n * (n + 1) / 2
              /\ forall fuel, gauss_ref p fuel n <> Val (triangular n)).
Proof.
  intros H.
  assert (Hv : forall fuel v, gauss_ref p fuel n = Val v -> v = n).
  { intros fuel v. rewrite gauss_ref_pos_Z by exact H.
    destruct (n - 1 <=? Z.of_nat fuel); congruence. }
  assert (Htri : 1 < n -> n <> triangular n).
  { intros Hn E. pose proof (triangular_double n) as Hd.
    assert (E0 : n * (n - 1) = 0) by lia.
    apply Z.eq_mul_0 in E0. lia. }
  repeat split.
  - exists (Z.to_nat (n - 1)). rewrite gauss_ref_pos_Z by exact H.
    rewrite Z2Nat.id, Z.leb_refl by lia. reflexivity.
  - exact Hv.
  - apply gauss_ref_base.
  - intros Hn fuel. rewrite gauss_ref_S by lia.
    rewrite sub_one_in_range by (int_consts; lia). reflexivity.
  - apply Htri. assumption.
  - intros fuel E. apply Hv in E. apply Htri; auto.
Qed.

Lemma gauss_ref_returns_arg_witness :
  1 <= 5 <= max_int /\ returns Wrap 5 5.
Proof.
  assert (H : 1 <= 5 <= max_int) by (vm_compute; split; discriminate).
  split; [exact H | exact (proj1 (gauss_ref_returns_arg Wrap 5 H))].
Defined.

(** C2: for every [n] with [1 < n] in the [int] range, [gauss_ref n]
    (which is [n]) differs from [gauss_closed n], whichever way overflow in
    the closed form is read. *)
Theorem gauss_ref_closed_disagree (p : sem) (n : Z) :
  1 < n <= max_int ->
  returns p n n
  /\ gauss_closed p n <> Val n
  /\ forall fuel, gauss_ref p fuel n <> gauss_closed p n.
Proof.
  intros H. repeat split.
  - exists (Z.to_nat (n - 1)). rewrite gauss_ref_pos_Z by lia.
    rewrite Z2Nat.id, Z.leb_refl by lia. reflexivity.
  - apply gauss_closed_ne_arg, H.
  - intros fuel. rewrite gauss_ref_pos_Z by lia.
    destruct (n - 1 <=? Z.of_nat fuel); intros E; symmetry in E.
    + exact (gauss_closed_ne_arg p n H E).
    + exact (gauss_closed_not_OutOfFuel p n E).
Qed.

Lemma gauss_ref_closed_disagree_witness :
  1 < 5 <= max_int /\ gauss_ref Wrap 4 5 <> gauss_closed Wrap 5.
Proof.
  assert (H : 1 < 5 <= max_int) by (vm_compute; split; [reflexivity | discriminate]).
  split; [exact H | exact (proj2 (proj2 (gauss_ref_closed_disagree Wrap 5 H)) 4%nat)].
Defined.

(** C4: the recursion of [gauss_ref] ends for every [n >= 1] after exactly
    [n - 1] recursive calls.  For [n <= 0] it ends as well: the argument
    reaches [min_int] after [n - min_int] calls, where [n - 1] overflows;
    read as undefined the call then has no value, read as wrap-around the
    argument goes on from [max_int] and the base case is met after exactly
    [n + 2^32 - 1] calls, the call returning [n]. *)
Theorem gauss_ref_termination (n : Z) (fuel : nat) :
  (1 <= n <= max_int ->
   forall p, gauss_ref p fuel n =
             if n - 1 <=? Z.of_nat fuel then Val n else OutOfFuel)
  /\ (min_int <= n <= 0 ->
      gauss_ref Strict fuel n =
        (if n - min_int <=? Z.of_nat fuel then UB else OutOfFuel)
      /\ gauss_ref Wrap fuel n =
           (if n + modulus - 1 <=? Z.of_nat fuel then Val n else OutOfFuel)).
Proof.
  split.
  - intros H p. apply gauss_ref_pos_Z, H.
  - intros H. split.
    + apply gauss_ref_nonpos_Strict_Z, H.
    + apply gauss_ref_nonpos_Wrap_Z, H.
Qed.

Lemma gauss_ref_termination_witness :
  (1 <= 5 <= max_int /\ gauss_ref Strict 4 5 = Val 5)
  /\ (min_int <= -2147483647 <= 0 /\
      gauss_ref Strict 1 (-2147483647) = UB).
Proof.
  assert (H1 : 1 <= 5 <= max_int) by (vm_compute; split; discriminate).
  assert (H0 : min_int <= -2147483647 <= 0)
    by (vm_compute; split; discriminate).
  split; (split; [assumption|]).
  - exact (proj1 (gauss_ref_termination 5 4) H1 Strict).
  - exact (proj1 (proj2 (gauss_ref_termination (-2147483647) 1) H0)).
Defined.

(** C4, as stated, fails at [n = -2147483648]: the call does not recurse
    for ever.  Read strictly, [n - 1] overflows before any recursive call;
    with wrap-around the argument becomes [2147483647] and the base case is
    met after [2147483647] calls, the call returning [-2147483648]. *)
Lemma gauss_ref_min_int_not_divergent :
  gauss_ref Strict 0 (-2147483648) = UB
  /\ returns Wrap (-2147483648) (-2147483648)
  /\ ~ diverges Strict (-2147483648)
  /\ ~ diverges Wrap (-2147483648).
Proof.
  assert (HS : gauss_ref Strict 0 (-2147483648) = UB) by reflexivity.
  assert (HW : gauss_ref Wrap (Z.to_nat max_int) min_int = Val min_int).
  { rewrite gauss_ref_min_int_Wrap, Z2Nat.id by discriminate.
    rewrite Z.leb_refl. reflexivity. }
  split; [exact HS|]. split; [|split].
  - exists (Z.to_nat max_int). exact HW.
  - intros D. specialize (D O). rewrite HS in D. discriminate D.
  - intros D. specialize (D (Z.to_nat max_int)).
    change (-2147483648) with min_int in D.
    rewrite HW in D. discriminate D.
Qed.

(** ** The closed form *)

(** C3: for every [n] with [0 <= n <= 1000], [gauss_closed n] is the
    triangular number [n (n + 1) / 2], the sum [1 + ... + n], and no
    operation overflows; in particular it is [0], [1], [3], [15] and [55]
    at [0], [1], [2], [5] and [10]. *)
Theorem gauss_closed_upto_1000 (p : sem) :
  (forall n, 0 <= n <= 1000 ->
     gauss_closed_product p n = Val (n * (n + 1))
     /\ gauss_closed p n = Val (n * (n + 1) / 2)
     /\ n * (n + 1) / 2 = sum_upto (Z.to_nat n))
  /\ gauss_closed p 0 = Val 0
  /\ gauss_closed p 1 = Val 1
  /\ gauss_closed p 2 = Val 3
  /\ gauss_closed p 5 = Val 15
  /\ gauss_closed p 10 = Val 55.
Proof.
  split.
  - intros n H.
    assert (Hx : - max_exact - 1 <= n <= max_exact)
      by (unfold max_exact; lia).
    split; [|split].
    + apply gauss_closed_product_exact, Hx.
    + apply gauss_closed_exact, Hx.
    + rewrite <- triangular_sum_upto, Z2Nat.id by lia. reflexivity.
  - destruct p; repeat split; reflexivity.
Qed.

Lemma gauss_closed_upto_1000_witness :
  0 <= 1000 <= 1000 /\ gauss_closed Strict 1000 = Val (1000 * (1000 + 1) / 2).
Proof.
  assert (H : 0 <= 1000 <= 1000) by lia.
  split; [exact H|].
  exact (proj1 (proj2 (proj1 (gauss_closed_upto_1000 Strict) 1000 H))).
Defined.

(** C5: [gauss_closed 65536] is not [2147516416].  That number is the
    triangular number over unbounded integers and exceeds the largest
    [int]; in the code the product [65536 * 65537] overflows, which read as
    wrap-around leaves [65536] and makes the call return [32768], and read
    strictly leaves the call without a value. *)
Theorem gauss_closed_65536 :
  gauss_closed_product Wrap 65536 = Val 65536
  /\ gauss_closed Wrap 65536 = Val 32768
  /\ gauss_closed Strict 65536 = UB
  /\ triangular 65536 = 2147516416
  /\ max_int < 2147516416
  /\ forall p n v, gauss_closed p n = Val v -> v <= max_int.
Proof.
  repeat split.
  intros p n v H. apply gauss_closed_Val_range in H. lia.
Qed.

(** C5, as stated, fails: at [65536] the code returns no [2147516416]
    under either reading of the overflow. *)
Lemma gauss_closed_65536_not_widened :
  gauss_closed Wrap 65536 <> Val 2147516416
  /\ gauss_closed Strict 65536 <> Val 2147516416.
Proof. split; vm_compute; discriminate. Qed.

(** C6: for every negative [n] whose product [n (n + 1)] fits an [int],
    that is [-46341 <= n <= -1], [gauss_closed n] is [n (n + 1)] divided by
    [2] with truncation toward zero.  The call has a value without any
    overflow exactly for the [int] arguments [-46341 <= n <= 46340], zero
    (result [0]) and those negative ones included; for the other [int]
    arguments [n + 1] or the product overflows, so that the call is
    undefined when overflow is, and returns the half of the wrapped product
    when overflow wraps around. *)
Theorem gauss_closed_negative (n : Z) :
  (-46341 <= n <= -1 ->
   forall p, gauss_closed_product p n = Val (n * (n + 1))
             /\ gauss_closed p n = Val (Z.quot (n * (n + 1)) 2))
  /\ (min_int <= n <= max_int ->
      ((exists v, gauss_closed Strict n = Val v) <-> -46341 <= n <= 46340)
      /\ (n < -46341 \/ 46340 < n -> gauss_closed Strict n = UB)
      /\ gauss_closed Wrap n = Val (Z.quot (wrap32 (n * (n + 1))) 2))
  /\ (forall p, gauss_closed p 0 = Val 0).
Proof.
  split; [|split].
  - intros H p.
    assert (Hx : - max_exact - 1 <= n <= max_exact)
      by (unfold max_exact; lia).
    split.
    + apply gauss_closed_product_exact, Hx.
    + rewrite triangular_quot. apply gauss_closed_exact, Hx.
  - intros H.
    assert (Hout : n < -46341 \/ 46340 < n -> gauss_closed Strict n = UB).
    { intros Ho. apply gauss_closed_Strict_overflow; [exact H|].
      unfold max_exact. lia. }
    split; [|split].
    + split.
      * intros [v E].
        destruct (Z_lt_ge_dec n (-46341)) as [Hlo | Hlo];
          [rewrite Hout in E by (left; exact Hlo); discriminate E|].
        destruct (Z_lt_ge_dec 46340 n) as [Hhi | Hhi];
          [rewrite Hout in E by (right; exact Hhi); discriminate E|].
        lia.
      * intros Hx. exists (triangular n).
        apply gauss_closed_exact. unfold max_exact. lia.
    + exact Hout.
    + apply gauss_closed_Wrap.
  - intros p. destruct p; reflexivity.
Qed.

Lemma gauss_closed_negative_witness :
  (-46341 <= -46341 <= -1 /\ gauss_closed Strict (-46341) = Val 1073720970)
  /\ (min_int <= -46342 <= max_int /\
      gauss_closed Wrap (-46342)
      = Val (Z.quot (wrap32 (-46342 * (-46342 + 1))) 2)).
Proof.
  assert (H1 : -46341 <= -46341 <= -1) by lia.
  assert (H2 : min_int <= -46342 <= max_int)
    by (vm_compute; split; discriminate).
  split; (split; [assumption|]).
  - exact (proj2 (proj1 (gauss_closed_negative (-46341)) H1 Strict)).
  - exact (proj2 (proj2 (proj1 (proj2 (gauss_closed_negative (-46342))) H2))).
Defined.

(** C6, as stated, fails at [n = -46342]: the product
    [(-46342) * (-46341) = 2147534622] exceeds the largest [int], so with
    overflow undefined the call has no value; with wrap-around it returns
    [-1073716337], which is not the truncated quotient [1073767311]. *)
Lemma gauss_closed_undefined_at_minus_46342 :
  gauss_closed Strict (-46342) = UB
  /\ ~ (exists v, gauss_closed Strict (-46342) = Val v)
  /\ gauss_closed Wrap (-46342) = Val (-1073716337)
  /\ Z.quot (-46342 * (-46342 + 1)) 2 = 1073767311.
Proof.
  assert (E : gauss_closed Strict (-46342) = UB) by (vm_compute; reflexivity).
  split; [exact E|]. split; [|split].
  - intros [v Ev]. rewrite E in Ev. discriminate Ev.
  - vm_compute. reflexivity.
  - vm_compute. reflexivity.
Qed.

(** C8: with wrap-around arithmetic, for every [int] [n], [gauss_closed]
    at the wrapped value of [-(n + 1)] equals [gauss_closed n], the two
    products [n (n + 1)] and [(-(n + 1)) (-n)] wrapping to one value. *)
Theorem gauss_closed_symmetry (n : Z) :
  min_int <= n <= max_int ->
  gauss_closed_product Wrap (wrap32 (- (n + 1))) = gauss_closed_product Wrap n
  /\ gauss_closed Wrap (wrap32 (- (n + 1))) = gauss_closed Wrap n.
Proof.
  intros H.
  assert (E : wrap32 (- (n + 1)) = - (n + 1))
    by (apply wrap32_small; int_consts; lia).
  rewrite E, !gauss_closed_product_Wrap, !gauss_closed_Wrap.
  replace (- (n + 1) * (- (n + 1) + 1)) with (n * (n + 1)) by ring.
  split; reflexivity.
Qed.

Lemma gauss_closed_symmetry_witness :
  min_int <= max_int <= max_int
  /\ gauss_closed Wrap (wrap32 (- (max_int + 1))) = gauss_closed Wrap max_int.
Proof.
  assert (H : min_int <= max_int <= max_int)
    by (vm_compute; split; discriminate).
  split; [exact H | exact (proj2 (gauss_closed_symmetry max_int H))].
Defined.

(** C9: with wrap-around arithmetic, for every [int] [n], the wrapped
    product [n (n + 1)] is even, so the division by [2] in [gauss_closed] is
    exact: twice the result is the wrapped product and the remainder is
    [0]. *)
Theorem gauss_closed_division_exact (n : Z) :
  min_int <= n <= max_int ->
  exists x r,
    gauss_closed_product Wrap n = Val x
    /\ gauss_closed Wrap n = Val r
    /\ Z.even x = true
    /\ Z.rem x 2 = 0
    /\ 2 * r = x.
Proof.
  intros _.
  exists (wrap32 (n * (n + 1))), (Z.quot (wrap32 (n * (n + 1))) 2).
  assert (Hev : Z.even (wrap32 (n * (n + 1))) = true)
    by (rewrite wrap32_even; apply even_consecutive).
  pose proof (quot2_even _ Hev) as Hq.
  repeat split.
  - apply gauss_closed_product_Wrap.
  - apply gauss_closed_Wrap.
  - exact Hev.
  - pose proof (Z.quot_rem' (wrap32 (n * (n + 1))) 2). lia.
  - exact Hq.
Qed.

Lemma gauss_closed_division_exact_witness :
  min_int <= 65536 <= max_int
  /\ exists x r,
       gauss_closed_product Wrap 65536 = Val x
       /\ gauss_closed Wrap 65536 = Val r
       /\ Z.even x = true /\ Z.rem x 2 = 0 /\ 2 * r = x.
Proof.
  assert (H : min_int <= 65536 <= max_int)
    by (vm_compute; split; discriminate).
  split; [exact H | exact (gauss_closed_division_exact 65536 H)].
Defined.

(** C10: [gauss_closed] is strictly increasing where nothing overflows and
    [n] is not negative: for [0 <= a < b <= 46340],
    [gauss_closed a < gauss_closed b]. *)
Theorem gauss_closed_strictly_increasing (p : sem) (a b : Z) :
  0 <= a < b /\ b <= 46340 ->
  exists va vb,
    gauss_closed p a = Val va /\ gauss_closed p b = Val vb /\ va < vb.
Proof.
  intros H. exists (triangular a), (triangular b).
  split; [|split].
  - apply gauss_closed_exact. unfold max_exact. lia.
  - apply gauss_closed_exact. unfold max_exact. lia.
  - pose proof (triangular_double a). pose proof (triangular_double b). nia.
Qed.

Lemma gauss_closed_strictly_increasing_witness :
  (0 <= 46339 < 46340 /\ 46340 <= 46340)
  /\ exists va vb,
       gauss_closed Strict 46339 = Val va
       /\ gauss_closed Strict 46340 = Val vb /\ va < vb.
Proof.
  assert (H : 0 <= 46339 < 46340 /\ 46340 <= 46340) by lia.
  split; [exact H | exact (gauss_closed_strictly_increasing Strict _ _ H)].
Defined.

(** ** Determinism and purity *)

(** A function that reads and assigns a global variable is neither: its
    result follows the store and the store is changed. *)
Example tally_is_not_pure :
  call Wrap (tally_def :: nil) 0 "tally" 1 (fun _ => 0)
  = Val (1, update "total" 1 (fun _ => 0))
  /\ call Wrap (tally_def :: nil) 0 "tally" 1 (fun _ => 5)
     = Val (6, update "total" 6 (fun _ => 5))
  /\ update "total" 1 (fun _ => 0) "total"%string <> 0.
Proof.
  split; [reflexivity|]. split; [reflexivity|]. discriminate.
Qed.



(** ** Where the two readings of overflow meet *)

Lemma norm_Strict_Wrap (z v : Z) :
  norm Strict z = Val v -> norm Wrap z = Val v.
Proof.
  unfold norm. destruct (in_range z); [trivial | discriminate].
Qed.

Lemma gauss_closed_Strict_Wrap (n v : Z) :
  gauss_closed Strict n = Val v -> gauss_closed Wrap n = Val v.
Proof.
  unfold gauss_closed, gauss_closed_product, add, mul, div.
  change (2 =? 0) with false. cbv iota.
  destruct (norm Strict (n + 1)) as [s| |] eqn:Es; try discriminate.
  rewrite (norm_Strict_Wrap _ _ Es), !bind_Val. cbv beta.
  destruct (norm Strict (n * s)) as [x| |] eqn:Ex; try discriminate.
  rewrite (norm_Strict_Wrap _ _ Ex), !bind_Val. cbv beta.
  apply norm_Strict_Wrap.
Qed.

Lemma gauss_ref_Wrap_not_UB (fuel : nat) :
  forall n, gauss_ref Wrap fuel n <> UB.
Proof.
  induction fuel as [|fuel IH]; intros n;
    rewrite gauss_ref_unfold; destruct (n =? 1); try discriminate;
    unfold sub; rewrite norm_Wrap, bind_Val; cbv beta.
  - discriminate.
  - specialize (IH (wrap32 (n - 1))).
    destruct (gauss_ref Wrap fuel (wrap32 (n - 1))) as [r| |];
      try discriminate; [|congruence].
    rewrite bind_Val. cbv beta. unfold add. rewrite norm_Wrap. discriminate.
Qed.

(** ** Divisibility of products of neighbours by [2^32] *)

Lemma modulus_divide_small (c : Z) :
  - modulus < c < modulus -> (modulus | c) -> c = 0.
Proof.
  int_consts. rewrite Emod. intros H [q Hq]. lia.
Qed.

Lemma modulus_divide_neighbours (a : Z) :
  - modulus < a -> a + 1 < modulus ->
  (modulus | a * (a + 1)) -> a = 0 \/ a = -1.
Proof.
  intros Hlo Hhi Hd.
  destruct (Z.odd a) eqn:Ea.
  - right. enough (a + 1 = 0) by lia.
    apply modulus_divide_small; [lia|].
    apply Z.gauss with (m := a); [exact Hd|].
    apply coprime_modulus_odd, Ea.
  - left. apply modulus_divide_small; [lia|].
    apply Z.gauss with (m := a + 1); [rewrite Z.mul_comm; exact Hd|].
    apply coprime_modulus_odd.
    rewrite Z.odd_add, Ea. reflexivity.
Qed.

Lemma wrapped_product_even (n : Z) :
  2 * Z.quot (wrap32 (n * (n + 1))) 2 = wrap32 (n * (n + 1)).
Proof.
  apply quot2_even. rewrite wrap32_even. apply even_consecutive.
Qed.

Lemma gauss_closed_product_Val_range (p : sem) (n x : Z) :
  gauss_closed_product p n = Val x -> min_int <= x <= max_int.
Proof.
  unfold gauss_closed_product, mul.
  destruct (add p n 1) as [s| |]; try discriminate.
  rewrite bind_Val. cbv beta. apply norm_Val_range.
Qed.

Lemma gauss_closed_to_Wrap (p : sem) (n v : Z) :
  gauss_closed p n = Val v -> gauss_closed Wrap n = Val v.
Proof.
  destruct p; [trivial | apply gauss_closed_Strict_Wrap].
Qed.

(** ** Further properties of [gauss_ref] *)

Lemma gauss_ref_returns_only_arg (p : sem) (n v : Z) :
  min_int <= n <= max_int ->
  returns p n v -> v = n /\ (p = Wrap \/ 1 <= n).
Proof.
  intros H [fuel E]. destruct (Z_le_gt_dec n 0) as [H0 | H1].
  - destruct p.
    + rewrite gauss_ref_nonpos_Wrap_Z in E by lia.
      destruct (n + modulus - 1 <=? Z.of_nat fuel);
        [injection E as <-; auto | discriminate E].
    + rewrite gauss_ref_nonpos_Strict_Z in E by lia.
      destruct (n - min_int <=? Z.of_nat fuel); discriminate E.
  - rewrite gauss_ref_pos_Z in E by lia.
    destruct (n - 1 <=? Z.of_nat fuel); [|discriminate E].
    injection E as <-. split; [reflexivity | right; lia].
Qed.

Lemma gauss_ref_returns_arg_when (p : sem) (n : Z) :
  min_int <= n <= max_int ->
  p = Wrap \/ 1 <= n -> returns p n n.
Proof.
  intros H Hp. destruct (Z_le_gt_dec n 0) as [H0 | H1].
  - destruct Hp as [-> | Hp]; [|lia].
    exists (Z.to_nat (n + modulus - 1)).
    rewrite gauss_ref_nonpos_Wrap_Z by lia.
    rewrite Z2Nat.id by (int_consts; lia).
    rewrite Z.leb_refl. reflexivity.
  - exists (Z.to_nat (n - 1)).
    rewrite gauss_ref_pos_Z by lia.
    rewrite Z2Nat.id by lia.
    rewrite Z.leb_refl. reflexivity.
Qed.

(** X1: on the whole [int] range [gauss_ref] returns nothing but its
    argument, and it does return exactly when [n >= 1] or overflow wraps
    around. *)
Theorem gauss_ref_returns_iff (p : sem) (n v : Z) :
  min_int <= n <= max_int ->
  (returns p n v <-> v = n /\ (p = Wrap \/ 1 <= n)).
Proof.
  intros H. split.
  - apply gauss_ref_returns_only_arg, H.
  - intros [-> Hp]. apply gauss_ref_returns_arg_when; assumption.
Qed.

Lemma gauss_ref_returns_iff_witness :
  min_int <= -7 <= max_int
  /\ (returns Strict (-7) (-7) <-> -7 = -7 /\ (Strict = Wrap \/ 1 <= -7)).
Proof.
  assert (H : min_int <= -7 <= max_int) by (vm_compute; split; discriminate).
  split; [exact H | exact (gauss_ref_returns_iff Strict (-7) (-7) H)].
Defined.

(** X2: a call of [gauss_ref] runs into undefined behaviour exactly when
    signed overflow is undefined and [n <= 0]: the descent then ends in
    [min_int - 1]. *)
Theorem gauss_ref_UB_iff (p : sem) (n : Z) :
  min_int <= n <= max_int ->
  ((exists fuel, gauss_ref p fuel n = UB) <-> p = Strict /\ n <= 0).
Proof.
  intros H. split.
  - intros [fuel E]. destruct p.
    + elim (gauss_ref_Wrap_not_UB fuel n E).
    + split; [reflexivity|].
      destruct (Z_le_gt_dec n 0) as [H0 | H1]; [exact H0|].
      rewrite gauss_ref_pos_Z in E by lia.
      destruct (n - 1 <=? Z.of_nat fuel); discriminate E.
  - intros [-> H0]. exists (Z.to_nat (n - min_int)).
    rewrite gauss_ref_nonpos_Strict_Z by lia.
    rewrite Z2Nat.id by lia.
    rewrite Z.leb_refl. reflexivity.
Qed.

Lemma gauss_ref_UB_iff_witness :
  min_int <= 0 <= max_int
  /\ ((exists fuel, gauss_ref Strict fuel 0 = UB) <-> Strict = Strict /\ 0 <= 0).
Proof.
  assert (H : min_int <= 0 <= max_int) by (vm_compute; split; discriminate).
  split; [exact H | exact (gauss_ref_UB_iff Strict 0 H)].
Defined.

(** ** Further properties of [gauss_closed] *)

(** X4: with signed overflow undefined, [gauss_closed n] is undefined
    exactly for the [int] arguments outside [-46341 .. 46340]. *)
Theorem gauss_closed_Strict_UB_iff (n : Z) :
  min_int <= n <= max_int ->
  (gauss_closed Strict n = UB <-> n < -46341 \/ 46340 < n).
Proof.
  intros H. split.
  - intros E.
    destruct (Z_lt_ge_dec n (-46341)) as [? | Hlo]; [left; assumption|].
    destruct (Z_lt_ge_dec 46340 n) as [? | Hhi]; [right; assumption|].
    rewrite gauss_closed_exact in E by (unfold max_exact; lia).
    discriminate E.
  - intros Ho. apply gauss_closed_Strict_overflow; [exact H|].
    unfold max_exact. lia.
Qed.

Lemma gauss_closed_Strict_UB_iff_witness :
  min_int <= 46341 <= max_int
  /\ (gauss_closed Strict 46341 = UB <-> 46341 < -46341 \/ 46340 < 46341).
Proof.
  assert (H : min_int <= 46341 <= max_int)
    by (vm_compute; split; discriminate).
  split; [exact H | exact (gauss_closed_Strict_UB_iff 46341 H)].
Defined.

(** X5: whatever [gauss_closed] returns lies between [-2^30] and
    [2^30 - 1]: half of the [int] range is never produced. *)
Theorem gauss_closed_result_bound (p : sem) (n v : Z) :
  gauss_closed p n = Val v -> -1073741824 <= v <= 1073741823.
Proof.
  unfold gauss_closed, div. change (2 =? 0) with false. cbv iota.
  destruct (gauss_closed_product p n) as [x| |] eqn:Ex; try discriminate.
  rewrite bind_Val. apply gauss_closed_product_Val_range in Ex.
  rewrite norm_in_range by (apply quot2_range, Ex).
  intros [= <-]. int_consts. rewrite Emin, Emax in Ex.
  Z.to_euclidean_division_equations. lia.
Qed.

Lemma gauss_closed_result_bound_witness :
  gauss_closed Wrap 2147483647 = Val (-1073741824)
  /\ -1073741824 <= -1073741824 <= 1073741823.
Proof.
  assert (H : gauss_closed Wrap 2147483647 = Val (-1073741824))
    by (vm_compute; reflexivity).
  split; [exact H | exact (gauss_closed_result_bound _ _ _ H)].
Defined.

(** X6: for an [int] [n], [gauss_closed n] is the triangular number
    [n (n + 1) / 2] exactly when [-46341 <= n <= 46340]; outside, the
    wrapped result is a different number. *)
Theorem gauss_closed_correct_iff (p : sem) (n : Z) :
  min_int <= n <= max_int ->
  (gauss_closed p n = Val (triangular n) <-> -46341 <= n <= 46340).
Proof.
  intros H. split.
  - intros E. apply gauss_closed_to_Wrap in E.
    rewrite gauss_closed_Wrap in E. injection E as E.
    pose proof (wrap32_range (n * (n + 1))) as Hr.
    pose proof (wrapped_product_even n) as Hev. rewrite E in Hev.
    pose proof (triangular_double n) as Hd.
    int_consts. nia.
  - intros Hx. apply gauss_closed_exact. unfold max_exact. lia.
Qed.

Lemma gauss_closed_correct_iff_witness :
  min_int <= 65536 <= max_int
  /\ (gauss_closed Wrap 65536 = Val (triangular 65536)
      <-> -46341 <= 65536 <= 46340).
Proof.
  assert (H : min_int <= 65536 <= max_int)
    by (vm_compute; split; discriminate).
  split; [exact H | exact (gauss_closed_correct_iff Wrap 65536 H)].
Defined.

(** X7: for an [int] [n], [gauss_closed n] is [0] exactly at [n = 0] and
    [n = -1], also where the product wraps around. *)
Theorem gauss_closed_zero_iff (p : sem) (n : Z) :
  min_int <= n <= max_int ->
  (gauss_closed p n = Val 0 <-> n = 0 \/ n = -1).
Proof.
  intros H. split.
  - intros E. apply gauss_closed_to_Wrap in E.
    rewrite gauss_closed_Wrap in E. injection E as E.
    pose proof (wrapped_product_even n) as Hev. rewrite E in Hev.
    destruct (wrap32_shift (n * (n + 1))) as [k Hk].
    int_consts.
    apply modulus_divide_neighbours; try lia.
    exists (- k). lia.
  - intros [-> | ->]; destruct p; reflexivity.
Qed.

Lemma gauss_closed_zero_iff_witness :
  min_int <= -1 <= max_int
  /\ (gauss_closed Strict (-1) = Val 0 <-> -1 = 0 \/ -1 = -1).
Proof.
  assert (H : min_int <= -1 <= max_int) by (vm_compute; split; discriminate).
  split; [exact H | exact (gauss_closed_zero_iff Strict (-1) H)].
Defined.

(** X8: for an [int] [n], [gauss_closed n] is [n] itself exactly at
    [n = 0] and [n = 1]; so a call of [gauss_ref] and a call of
    [gauss_closed] return one value exactly at [n = 1], and at [n = 0] when
    overflow wraps around. *)
Theorem gauss_agree_iff (p : sem) (n : Z) :
  min_int <= n <= max_int ->
  (gauss_closed p n = Val n <-> n = 0 \/ n = 1)
  /\ ((exists fuel v, gauss_ref p fuel n = Val v /\ gauss_closed p n = Val v)
      <-> n = 1 \/ (n = 0 /\ p = Wrap)).
Proof.
  intros H.
  assert (Hfix : gauss_closed p n = Val n <-> n = 0 \/ n = 1).
  { split.
    - intros E. apply gauss_closed_to_Wrap in E.
      rewrite gauss_closed_Wrap in E. injection E as E.
      pose proof (wrapped_product_even n) as Hev. rewrite E in Hev.
      destruct (wrap32_shift (n * (n + 1))) as [k Hk].
      int_consts.
      destruct (modulus_divide_neighbours (n - 1)) as [E0 | E1]; try lia.
      exists (- k). lia.
    - intros [-> | ->]; destruct p; reflexivity. }
  split; [exact Hfix|]. split.
  - intros (fuel & v & Er & Ec).
    assert (Hr : returns p n v) by (exists fuel; exact Er).
    apply (gauss_ref_returns_only_arg p n v H) in Hr. destruct Hr as [-> Hp].
    apply Hfix in Ec. destruct Ec as [-> | ->]; [|left; reflexivity].
    destruct Hp as [-> | Hp]; [right; split; reflexivity | lia].
  - intros Hn.
    assert (Hr : returns p n n).
    { apply gauss_ref_returns_arg_when; [exact H|].
      destruct Hn as [-> | [_ ->]]; [right; lia | left; reflexivity]. }
    destruct Hr as [fuel Er]. exists fuel, n. split; [exact Er|].
    apply Hfix. destruct Hn as [-> | [-> _]]; [right | left]; reflexivity.
Qed.

Lemma gauss_agree_iff_witness :
  min_int <= 1 <= max_int
  /\ (gauss_closed Strict 1 = Val 1 <-> 1 = 0 \/ 1 = 1).
Proof.
  assert (H : min_int <= 1 <= max_int) by (vm_compute; split; discriminate).
  split; [exact H | exact (proj1 (gauss_agree_iff Strict 1 H))].
Defined.

(** X9: where nothing overflows, two arguments get the same result from
    [gauss_closed] exactly when they are equal or mirror images,
    [a + b = -1]. *)
Theorem gauss_closed_level_sets (p : sem) (a b : Z) :
  -46341 <= a <= 46340 -> -46341 <= b <= 46340 ->
  (gauss_closed p a = gauss_closed p b <-> a = b \/ a + b = -1).
Proof.
  intros Ha Hb.
  rewrite !gauss_closed_exact by (unfold max_exact; lia).
  pose proof (triangular_double a) as Da.
  pose proof (triangular_double b) as Db.
  split.
  - intros [= E].
    assert (E0 : (a - b) * (a + b + 1) = 0) by lia.
    apply Z.eq_mul_0 in E0. lia.
  - intros Hab. f_equal.
    assert (E0 : a * (a + 1) = b * (b + 1)).
    { destruct Hab as [-> | Hab]; [reflexivity|].
      replace a with (- (b + 1)) by lia. ring. }
    lia.
Qed.

Lemma gauss_closed_level_sets_witness :
  (-46341 <= 9 <= 46340 /\ -46341 <= -10 <= 46340)
  /\ (gauss_closed Strict 9 = gauss_closed Strict (-10)
      <-> 9 = -10 \/ 9 + -10 = -1).
Proof.
  assert (Ha : -46341 <= 9 <= 46340) by lia.
  assert (Hb : -46341 <= -10 <= 46340) by lia.
  split; [split; assumption|].
  exact (gauss_closed_level_sets Strict 9 (-10) Ha Hb).
Defined.



(** X11: when overflow wraps around, the result of [gauss_closed] still
    agrees with the triangular number modulo [2^31]. *)
Theorem gauss_closed_Wrap_congruent (n : Z) :
  min_int <= n <= max_int ->
  exists v, gauss_closed Wrap n = Val v
            /\ (half_modulus | v - triangular n).
Proof.
  intros _. exists (Z.quot (wrap32 (n * (n + 1))) 2).
  split; [apply gauss_closed_Wrap|].
  pose proof (wrapped_product_even n) as Hev.
  pose proof (triangular_double n) as Hd.
  destruct (wrap32_shift (n * (n + 1))) as [k Hk].
  int_consts. rewrite Emod in Hk. rewrite Ehalf.
  exists k. lia.
Qed.

Lemma gauss_closed_Wrap_congruent_witness :
  min_int <= 65536 <= max_int
  /\ exists v, gauss_closed Wrap 65536 = Val v
               /\ (half_modulus | v - triangular 65536).
Proof.
  assert (H : min_int <= 65536 <= max_int)
    by (vm_compute; split; discriminate).
  split; [exact H | exact (gauss_closed_Wrap_congruent 65536 H)].
Defined.

(** X12: where nothing overflows and [n] is negative, [gauss_closed] is
    strictly decreasing: for [-46341 <= a < b <= -1],
    [gauss_closed b < gauss_closed a]. *)
Theorem gauss_closed_decreasing_negative (p : sem) (a b : Z) :
  -46341 <= a < b /\ b <= -1 ->
  exists va vb,
    gauss_closed p a = Val va /\ gauss_closed p b = Val vb /\ vb < va.
Proof.
  intros H. exists (triangular a), (triangular b).
  split; [|split].
  - apply gauss_closed_exact. unfold max_exact. lia.
  - apply gauss_closed_exact. unfold max_exact. lia.
  - pose proof (triangular_double a). pose proof (triangular_double b). nia.
Qed.

Lemma gauss_closed_decreasing_negative_witness :
  (-46341 <= -46341 < -46340 /\ -46340 <= -1)
  /\ exists va vb,
       gauss_closed Strict (-46341) = Val va
       /\ gauss_closed Strict (-46340) = Val vb /\ vb < va.
Proof.
  assert (H : -46341 <= -46341 < -46340 /\ -46340 <= -1) by lia.
  split; [exact H | exact (gauss_closed_decreasing_negative Strict _ _ H)].
Defined.
